(** * Todo-app: the client's list controller and the gateway's Create contract

    A shallow embedding of [client/src/App.jsx] and [client/src/services/api.js]:
    the React state of [App], the four request helpers, and the asynchronous
    event handlers [handleAdd], [toggleCompleted], [removeTodo] and
    [clearCompleted].  A handler is a tree of state updates and network round
    trips; it is run against a world that answers every request and says what
    the other activities of the page did to the state while the handler was
    suspended.  The render's counters and button tests, the initial load and
    the theme (state, [data-theme] attribute and [localStorage]) are embedded
    as well. *)

From Stdlib Require Import NArith Ascii String.
From stdpp Require Import base decidable option list list_numbers.

Local Open Scope N_scope.
Local Open Scope list_scope.

(** ** JavaScript strings

    A JavaScript string is a sequence of UTF-16 code units.  [lit] reads an
    ASCII literal of the source. *)
Module JsString.

Definition jsstring : Type := list N.

Definition lit (s : string) : jsstring :=
  List.map N_of_ascii (list_ascii_of_string s).

(** The code units [String.prototype.trim] strips: ECMAScript WhiteSpace
    (TAB, VT, FF, SP, NBSP, ZWNBSP and the Unicode space separators) and
    LineTerminator (LF, CR, LS, PS).  All of them are single code units. *)
Definition is_ws (c : N) : bool :=
  bool_decide (c ∈ [9; 10; 11; 12; 13; 32; 160; 5760; 8232; 8233; 8239; 8287; 12288; 65279])
  || ((8192 <=? c) && (c <=? 8202)).

Fixpoint dropWhile {A} (p : A → bool) (l : list A) : list A :=
  match l with
  | [] => []
  | x :: l' => if p x then dropWhile p l' else l
  end.

Definition trimStart (s : jsstring) : jsstring := dropWhile is_ws s.
Definition trimEnd (s : jsstring) : jsstring := reverse (dropWhile is_ws (reverse s)).
Definition trim (s : jsstring) : jsstring := trimEnd (trimStart s).

(** [!s] on a string: only the empty string is falsy. *)
Definition falsy (s : jsstring) : bool :=
  match s with [] => true | _ :: _ => false end.

End JsString.
Export JsString.

(** ** Task items, requests and the component state *)
Module Model.

Definition Id : Type := jsstring.

Record Todo := { _id : Id; title : jsstring; completed : bool }.

#[export] Instance Todo_eq_dec : EqDecision Todo.
Proof. solve_decision. Defined.

(** The four calls of [services/api.js]; the payloads are [{ title }] for
    POST and [{ completed }] for PUT. *)
Inductive Request :=
| GetTodos
| PostTodo (title : jsstring)
| PutTodo (id : Id) (completed : bool)
| DeleteTodo (id : Id).

#[export] Instance Request_eq_dec : EqDecision Request.
Proof. solve_decision. Defined.

(** [res.data] of a fulfilled request.  The body of a DELETE response is
    returned by [deleteTodo] and dropped by both of its callers. *)
Definition Data (r : Request) : Type :=
  match r with
  | GetTodos => list Todo
  | PostTodo _ => Todo
  | PutTodo _ _ => Todo
  | DeleteTodo _ => unit
  end.

(** What a rejected axios promise carries: the HTTP status when the server
    answered, nothing when it did not.  No handler looks at it. *)
Inductive Exn := AxiosError (status : option N).

(** The values [filter] takes: ['all'], ['active'], ['completed']. *)
Inductive Filter := Filter_all | Filter_active | Filter_completed.
Inductive Theme := light | dark.

(** The [useState] cells of [App]. *)
Record State := {
  todos : list Todo;
  newTitle : jsstring;
  loading : bool;
  error : option jsstring;
  filter_ : Filter;
  theme : Theme
}.

(** [useState] initial values. *)
Definition initial : State :=
  {| todos := []; newTitle := []; loading := false; error := None;
     filter_ := Filter_all; theme := light |}.

(** The state setters, as functions on the whole state.  [with_todos] takes
    an updater, as [setTodos(prev => ...)] does. *)
Definition with_todos (f : list Todo → list Todo) (s : State) : State :=
  {| todos := f (todos s); newTitle := newTitle s; loading := loading s;
     error := error s; filter_ := filter_ s; theme := theme s |}.
Definition with_newTitle (v : jsstring) (s : State) : State :=
  {| todos := todos s; newTitle := v; loading := loading s;
     error := error s; filter_ := filter_ s; theme := theme s |}.
Definition with_loading (v : bool) (s : State) : State :=
  {| todos := todos s; newTitle := newTitle s; loading := v;
     error := error s; filter_ := filter_ s; theme := theme s |}.
Definition with_error (v : option jsstring) (s : State) : State :=
  {| todos := todos s; newTitle := newTitle s; loading := loading s;
     error := v; filter_ := filter_ s; theme := theme s |}.
Definition with_filter (v : Filter) (s : State) : State :=
  {| todos := todos s; newTitle := newTitle s; loading := loading s;
     error := error s; filter_ := v; theme := theme s |}.

End Model.
Export Model.

(** ** Asynchronous functions

    The body of an [async function] is a tree: it returns, throws, queues a
    state update, or suspends on a network round trip and goes on with the
    response or the rejection. *)
Module Async.

Inductive Task (A : Type) : Type :=
| Ret (a : A)
| Throw (e : Exn)
| SetState (f : State → State) (k : Task A)
| Call (r : Request) (k : Data r + Exn → Task A).
Arguments Ret {A} a.
Arguments Throw {A} e.
Arguments SetState {A} f k.
Arguments Call {A} r k.

Fixpoint bind {A B} (t : Task A) (f : A → Task B) : Task B :=
  match t with
  | Ret a => f a
  | Throw e => Throw e
  | SetState g k => SetState g (bind k f)
  | Call r k => Call r (λ x, bind (k x) f)
  end.

#[export] Instance Task_ret : MRet Task := @Ret.
#[export] Instance Task_bind : MBind Task := λ A B f t, bind t f.

(** [try { body } catch (e) { handler e }] *)
Fixpoint try_catch {A} (body : Task A) (handler : Exn → Task A) : Task A :=
  match body with
  | Ret a => Ret a
  | Throw e => handler e
  | SetState g k => SetState g (try_catch k handler)
  | Call r k => Call r (λ x, try_catch (k x) handler)
  end.

(** [try { body } finally { fin }]: [fin] runs on both exits and the
    completion of [body] is kept (unless [fin] throws itself). *)
Fixpoint finally {A} (body : Task A) (fin : Task unit) : Task A :=
  match body with
  | Ret a => bind fin (λ _, Ret a)
  | Throw e => bind fin (λ _, Throw e)
  | SetState g k => SetState g (finally k fin)
  | Call r k => Call r (λ x, finally (k x) fin)
  end.

(** [for (const x of l) { body x }] *)
Fixpoint for_of {X} (l : list X) (body : X → Task unit) : Task unit :=
  match l with
  | [] => Ret tt
  | x :: l' => bind (body x) (λ _, for_of l' body)
  end.

(** [await] of the promise of a request: the data when it is fulfilled, a
    throw at the [await] when it is rejected. *)
Definition await_request (r : Request) : Task (Data r) :=
  Call r (λ x, match x with inl d => Ret d | inr e => Throw e end).

Definition set (f : State → State) : Task unit := SetState f (Ret tt).

(** *** Running a task

    While a task is suspended on its [n]-th round trip, the rest of the
    page goes on: other handlers resume and update the state.  A [Turn]
    gives the response to the request and the change the others made to
    the state in the meantime. *)
Record Turn := {
  reply : ∀ r : Request, Data r + Exn;
  meanwhile : State → State
}.

Definition World : Type := nat → Turn.

Record Outcome (A : Type) := {
  final : State;          (* the state when the task completes *)
  result : A + Exn;       (* returned value, or the exception that escaped *)
  sent : list Request     (* the requests issued, in order *)
}.
Arguments final {A} o.
Arguments result {A} o.
Arguments sent {A} o.

Fixpoint exec {A} (t : Task A) (w : World) (n : nat) (s : State) : Outcome A :=
  match t with
  | Ret a => {| final := s; result := inl a; sent := [] |}
  | Throw e => {| final := s; result := inr e; sent := [] |}
  | SetState f k => exec k w n (f s)
  | Call r k =>
      let o := exec (k (reply (w n) r)) w (S n) (meanwhile (w n) s) in
      {| final := final o; result := result o; sent := r :: sent o |}
  end.

(** The state the others leave behind over the turns [n, n + len). *)
Fixpoint drift (w : World) (n len : nat) (s : State) : State :=
  match len with
  | O => s
  | S len' => drift w (S n) len' (meanwhile (w n) s)
  end.

(** A world in which nothing else touches the state. *)
Definition quiet (w : World) : Prop := ∀ n s, meanwhile (w n) s = s.

(** An event handler is created by a render and closes over the state of
    that render; the event runs it from that same state. *)
Definition invoke {A} (handler : State → Task A) (w : World) (s : State) : Outcome A :=
  exec (handler s) w 0 s.

(** *** Several handlers at once

    The page itself: the state and the handlers that are suspended on a
    request.  An event runs its handler up to the first request; a response
    resumes the handler it belongs to up to its next request. *)
Inductive Paused :=
| Finished (r : unit + Exn)
| Waiting (r : Request) (k : Data r + Exn → Task unit).

Fixpoint advance (t : Task unit) (s : State) : State * Paused :=
  match t with
  | Ret a => (s, Finished (inl a))
  | Throw e => (s, Finished (inr e))
  | SetState f k => advance k (f s)
  | Call r k => (s, Waiting r k)
  end.

Record Page := { current : State; handlers : list Paused }.

Definition fire (handler : State → Task unit) (p : Page) : Page :=
  let '(s, q) := advance (handler (current p)) (current p) in
  {| current := s; handlers := handlers p ++ [q] |}.

Definition respond (i : nat) (replies : ∀ r, Data r + Exn) (p : Page) : Page :=
  match handlers p !! i with
  | Some (Waiting r k) =>
      let '(s, q) := advance (k (replies r)) (current p) in
      {| current := s; handlers := <[i := q]> (handlers p) |}
  | Some (Finished _) | None => p
  end.

(** Handler [i] of the page has returned normally. *)
Definition returned (i : nat) (p : Page) : bool :=
  match handlers p !! i with
  | Some (Finished (inl _)) => true
  | _ => false
  end.

End Async.
Export Async.

(** ** [services/api.js] *)
Module Api.

Definition fetchTodos : Task (list Todo) :=
  res_data ← await_request GetTodos; mret res_data.

Definition createTodo (title : jsstring) : Task Todo :=
  res_data ← await_request (PostTodo title); mret res_data.

Definition updateTodo (id : Id) (completed : bool) : Task Todo :=
  res_data ← await_request (PutTodo id completed); mret res_data.

Definition deleteTodo (id : Id) : Task unit :=
  res_data ← await_request (DeleteTodo id); mret res_data.

End Api.
Export Api.

(** ** [App.jsx] *)
Module App.

Definition setTodos (f : list Todo → list Todo) : Task unit := set (with_todos f).
Definition setNewTitle (v : jsstring) : Task unit := set (with_newTitle v).
Definition setLoading (v : bool) : Task unit := set (with_loading v).
Definition setError (v : option jsstring) : Task unit := set (with_error v).
Definition setFilter (v : Filter) : Task unit := set (with_filter v).

(** *** Derived views *)

Definition pendingCount (s : State) : nat :=
  length (filter (λ t, ¬ completed t) (todos s)).

Definition shownTodos (s : State) : list Todo :=
  match filter_ s with
  | Filter_active => filter (λ t, ¬ completed t) (todos s)
  | Filter_completed => filter (λ t, completed t) (todos s)
  | Filter_all => todos s
  end.

(** *** The initial load of the mount effect (the theme part left out) *)
Definition loadTodos (_ : State) : Task unit :=
  setLoading true;;
  setError None;;
  finally
    (try_catch
       (data ← fetchTodos;
        setTodos (λ _, data))
       (λ _, setError (Some (lit "Failed to load todos. Is the server running?"))))
    (setLoading false).

(** *** Event handlers

    Each takes the state of the render that created it: [handleAdd] reads
    [newTitle] and [clearCompleted] reads [todos] from that closure. *)

Definition handleAdd (s : State) : Task unit :=
  (* e.preventDefault() touches no state *)
  if falsy (trim (newTitle s)) then mret tt else
  setLoading true;;
  setError None;;
  finally
    (try_catch
       (created ← createTodo (trim (newTitle s));
        setTodos (λ prev, created :: prev);;
        setNewTitle (lit ""))
       (λ _, setError (Some (lit "Failed to add todo"))))
    (setLoading false).

Definition toggleCompleted (todo : Todo) (_ : State) : Task unit :=
  setLoading true;;
  setError None;;
  finally
    (try_catch
       (updated ← updateTodo (_id todo) (negb (completed todo));
        setTodos (λ prev, (λ t, if decide (_id t = _id updated) then updated else t) <$> prev))
       (λ _, setError (Some (lit "Failed to update todo"))))
    (setLoading false).

Definition removeTodo (id : Id) (_ : State) : Task unit :=
  setLoading true;;
  setError None;;
  finally
    (try_catch
       (deleteTodo id;;
        setTodos (λ prev, filter (λ t, _id t ≠ id) prev))
       (λ _, setError (Some (lit "Failed to delete todo"))))
    (setLoading false).

Definition clearCompleted (s : State) : Task unit :=
  let completed_items := filter (λ t, completed t) (todos s) in
  if decide (length completed_items = 0%nat) then mret tt else
  setLoading true;;
  setError None;;
  finally
    (try_catch
       (for_of completed_items (λ t,
          (* best-effort sequential deletes, errors per item ignored *)
          try_catch (deleteTodo (_id t)) (λ _, mret tt));;
        setTodos (λ prev, filter (λ t, ¬ completed t) prev))
       (λ _, setError (Some (lit "Failed to clear completed"))))
    (setLoading false).

End App.
Export App.

(** ** The Store Gateway's Create *)
Module Gateway.

Inductive GatewayError := ValidationError | NotFound | StoreUnavailable.

(** The body of a Create request: both fields may be absent. *)
Record CreateInput := {
  input_title : option jsstring;
  input_completed : option bool
}.

Section Create.

(** Modelled from the spec: the identifier the document store assigns to
    a new item.  The store is not part of the sources; the spec only says
    that the id is assigned by the store on creation. *)
Variable assign : list Todo → Id.

(** Modelled from the spec: the router [./routes/todos] that
    [server/index.js] mounts on [/api/todos], and the collection behind
    it, are not among the sources.  Create takes a [title] (required,
    non-empty after trimming) and optionally [completed] (default false);
    it returns the new item with its assigned id, or fails with
    [ValidationError] when the title is missing or empty.  The collection
    is the list of its items. *)
Definition create (store : list Todo) (i : CreateInput)
  : GatewayError + Todo * list Todo :=
  match input_title i with
  | None => inl ValidationError
  | Some t =>
      if falsy (trim t) then inl ValidationError
      else
        let item := {| _id := assign store; title := t;
                       completed := default false (input_completed i) |} in
        inr (item, store ++ [item])
  end.

(** A sequence of Create requests, each on the collection the previous
    ones left; the responses in order, and the collection at the end. *)
Fixpoint creates (store : list Todo) (inputs : list CreateInput)
  : list (GatewayError + Todo) * list Todo :=
  match inputs with
  | [] => ([], store)
  | i :: inputs' =>
      match create store i with
      | inl err => let '(rs, st) := creates store inputs' in (inl err :: rs, st)
      | inr (item, store') => let '(rs, st) := creates store' inputs' in (inr item :: rs, st)
      end
  end.

(** The items among a list of responses. *)
Definition created (rs : list (GatewayError + Todo)) : list Todo :=
  omap (λ r, match r with inl _ => None | inr item => Some item end) rs.

End Create.

(** An id assignment for the examples: longer than every id in use. *)
Definition longer_id (store : list Todo) : Id :=
  replicate (S (max_list ((λ t, length (_id t)) <$> store))) 48.

End Gateway.

(** ** Concrete states and worlds for the examples *)
Module Examples.

Definition item (i : string) (c : bool) : Todo :=
  {| _id := lit i; title := lit "task " ++ lit i; completed := c |}.

Definition example_items : list Todo :=
  [item "1" true; item "2" false; item "3" true].

Definition example_state : State := with_todos (λ _, example_items) initial.

(** A server that rejects everything. *)
Definition rejecting (r : Request) : Data r + Exn := inr (AxiosError (Some 500)).

(** A server that confirms everything, echoing what it was sent. *)
Definition echo (r : Request) : Data r + Exn :=
  match r return Data r + Exn with
  | GetTodos => inl []
  | PostTodo t => inl {| _id := lit "new"; title := t; completed := false |}
  | PutTodo id c => inl {| _id := id; title := lit "task " ++ id; completed := c |}
  | DeleteTodo _ => inl tt
  end.

Definition calm (replies : ∀ r, Data r + Exn) : World :=
  λ _, {| reply := replies; meanwhile := λ st, st |}.

(** While the first request of the observed handler is in flight, the user
    ticks the checkbox of item 2 and the server confirms that update; the
    checkbox is not disabled while [loading]. *)
Definition toggled_meanwhile : World :=
  λ n, {| reply := echo;
          meanwhile := match n with
                       | O => λ st, final (invoke (toggleCompleted (item "2" false)) (calm echo) st)
                       | S _ => λ st, st
                       end |}.

End Examples.
Export Examples.

(** ** Vocabulary of the statements *)
Module Statements.

(** [r] is exactly the items of [l] that satisfy [P], in their order in
    [l]: the largest subsequence of [l] all of whose elements satisfy [P]. *)
Definition selects {A} (P : A → Prop) (l r : list A) : Prop :=
  r `sublist_of` l ∧ Forall P r ∧
  ∀ k, k `sublist_of` l → Forall P k → k `sublist_of` r.

(** The outcome of a task that ran after [rs] had been sent. *)
Definition after {A} (rs : list Request) (o : Outcome A) : Outcome A :=
  {| final := final o; result := result o; sent := rs ++ sent o |}.

(** A title that is empty or made of whitespace only. *)
Definition blank (t : jsstring) : Prop := Forall (λ c, is_ws c = true) t.

(** The state in which a handler suspends on its first request: every
    handler that sends one has set [loading] and cleared [error] by then. *)
Definition begin (s : State) : State := with_error None (with_loading true s).

(** The three single-request operations of the list controller. *)
Inductive Operation :=
| Add
| Toggle (todo : Todo)
| Remove (id : Id).

Definition handler_of (op : Operation) : State → Task unit :=
  match op with
  | Add => handleAdd
  | Toggle todo => toggleCompleted todo
  | Remove id => removeTodo id
  end.

Definition request_of (op : Operation) (s : State) : Request :=
  match op with
  | Add => PostTodo (trim (newTitle s))
  | Toggle todo => PutTodo (_id todo) (negb (completed todo))
  | Remove id => DeleteTodo id
  end.

(** Add sends its request only for a title that is not blank. *)
Definition issues (op : Operation) (s : State) : Prop :=
  match op with
  | Add => ¬ blank (newTitle s)
  | Toggle _ | Remove _ => True
  end.

Definition failure_message (op : Operation) : jsstring :=
  match op with
  | Add => lit "Failed to add todo"
  | Toggle _ => lit "Failed to update todo"
  | Remove _ => lit "Failed to delete todo"
  end.

(** The ids of the items that are completed when the sweep is invoked. *)
Definition snapshot_ids (s : State) : list Id :=
  _id <$> filter (λ t, completed t) (todos s).

(** The sweep as a removal by snapshot id: afterwards no item carries an
    id of the snapshot, and every id of [todos] outside the snapshot is
    still there. *)
Definition removes_snapshot_only (w : World) (s : State) : Prop :=
  let o := invoke clearCompleted w s in
  (∀ t, t ∈ todos (final o) → _id t ∉ snapshot_ids s) ∧
  (∀ t, t ∈ todos s → _id t ∉ snapshot_ids s →
        ∃ t', t' ∈ todos (final o) ∧ _id t' = _id t).

(** In the list [l] the completed items are exactly the items whose id
    is among [ids]. *)
Definition flags_follow_snapshot (ids : list Id) (l : list Todo) : Prop :=
  Forall (λ t, completed t = bool_decide (_id t ∈ ids)) l.

End Statements.
Export Statements.

(** ** [App.jsx]: what the render computes from the state *)
Module Render.

(** [disabled={loading || !newTitle.trim()}] of the Add button. *)
Definition addDisabled (s : State) : bool :=
  loading s || falsy (trim (newTitle s)).

(** [disabled={loading || todos.every(t => !t.completed)}] of the
    "Clear completed" button. *)
Definition clearDisabled (s : State) : bool :=
  loading s || forallb (λ t, negb (completed t)) (todos s).

(** [shownTodos.length === 0]: the placeholder is shown instead of the list. *)
Definition showsEmpty (s : State) : bool :=
  bool_decide (length (shownTodos s) = 0%nat).

(** [Total: {todos.length}] of the header. *)
Definition total (s : State) : nat := length (todos s).

End Render.
Export Render.

(** ** [App.jsx]: the theme

    The theme lives in three places: the [theme] cell of the state, the
    [data-theme] attribute of the document element and the ['theme'] key of
    [localStorage]. *)
Module ThemeStore.

Record Browser := {
  stored_theme : option jsstring;   (* localStorage.getItem('theme') *)
  dataset_theme : option jsstring;  (* document.documentElement.dataset.theme *)
  prefersDark : bool                (* window.matchMedia && matchMedia('(prefers-color-scheme: dark)').matches *)
}.

Definition theme_name (t : Theme) : jsstring :=
  match t with light => lit "light" | dark => lit "dark" end.

Definition with_theme (v : Theme) (s : State) : State :=
  {| todos := todos s; newTitle := newTitle s; loading := loading s;
     error := error s; filter_ := filter_ s; theme := v |}.

Definition with_dataset (t : Theme) (b : Browser) : Browser :=
  {| stored_theme := stored_theme b; dataset_theme := Some (theme_name t);
     prefersDark := prefersDark b |}.

Definition with_stored (t : Theme) (b : Browser) : Browser :=
  {| stored_theme := Some (theme_name t); dataset_theme := dataset_theme b;
     prefersDark := prefersDark b |}.

(** The [saved === 'light' || saved === 'dark'] test of the mount effect. *)
Definition saved_theme (saved : option jsstring) : option Theme :=
  match saved with
  | Some v =>
      if decide (v = lit "light") then Some light
      else if decide (v = lit "dark") then Some dark
      else None
  | None => None
  end.

(** The theme part of the mount effect. *)
Definition initTheme (b : Browser) (s : State) : Browser * State :=
  match saved_theme (stored_theme b) with
  | Some saved => (with_dataset saved b, with_theme saved s)
  | None =>
      let initial_theme := if prefersDark b then dark else light in
      (with_dataset initial_theme b, with_theme initial_theme s)
  end.

Definition toggleTheme (b : Browser) (s : State) : Browser * State :=
  let next := match theme s with dark => light | light => dark end in
  (with_stored next (with_dataset next b), with_theme next s).

End ThemeStore.
Export ThemeStore.

(** ** Vocabulary of the further properties *)
Module Handlers.

(** Everything of [App] that talks to the server. *)
Inductive Handler :=
| OnMount
| OnAdd
| OnToggle (todo : Todo)
| OnRemove (id : Id)
| OnClear.

Definition run_of (h : Handler) : State → Task unit :=
  match h with
  | OnMount => loadTodos
  | OnAdd => handleAdd
  | OnToggle todo => toggleCompleted todo
  | OnRemove id => removeTodo id
  | OnClear => clearCompleted
  end.

(** A title as the server is to receive it: not empty, no whitespace at
    either end. *)
Definition trimmed (t : jsstring) : Prop :=
  t ≠ [] ∧
  (∀ c, head t = Some c → is_ws c = false) ∧
  (∀ c, last t = Some c → is_ws c = false).

(** The item with its checkbox the other way. *)
Definition flipped (t : Todo) : Todo :=
  {| _id := _id t; title := title t; completed := negb (completed t) |}.

(** A world whose other activities leave [todos] alone. *)
Definition keeps_todos (w : World) : Prop :=
  ∀ n st, todos (meanwhile (w n) st) = todos st.

End Handlers.
Export Handlers.

(** ** More worlds for the examples *)
Module Scenarios.

(** While the first request of the observed handler is in flight, the user
    deletes item 2 and the server confirms. *)
Definition removed_meanwhile : World :=
  λ n, {| reply := echo;
          meanwhile := match n with
                       | O => λ st, final (invoke (removeTodo (lit "2")) (calm echo) st)
                       | S _ => λ st, st
                       end |}.

(** While the first request of the observed handler is in flight, the user
    submits the title "Buy milk" and the server confirms the new item. *)
Definition added_meanwhile : World :=
  λ n, {| reply := echo;
          meanwhile := match n with
                       | O => λ st, final (invoke handleAdd (calm echo)
                                             (with_newTitle (lit "Buy milk") st))
                       | S _ => λ st, st
                       end |}.

(** A browser that has nothing stored and prefers the dark scheme. *)
Definition fresh_dark_browser : Browser :=
  {| stored_theme := None; dataset_theme := None; prefersDark := true |}.

End Scenarios.
Export Scenarios.

(** * Properties *)

(** ** Lists and strings *)
Section ListFacts.
Context {A : Type}.

Lemma dropWhile_nil_iff (p : A → bool) (l : list A) :
  dropWhile p l = [] ↔ Forall (λ x, p x = true) l.
Proof.
  induction l as [|x l IH]; simpl.
  - split; [constructor | done].
  - destruct (p x) eqn:Hx.
    + rewrite IH. split; [by constructor | by inversion 1].
    + split; [done | inversion 1; congruence].
Qed.

Lemma dropWhile_head (p : A → bool) (l : list A) x k :
  dropWhile p l = x :: k → p x = false.
Proof.
  induction l as [|y l IH]; simpl; [done|].
  destruct (p y) eqn:Hy; [done|]. by intros [= -> _].
Qed.

Lemma filter_selects (P : A → Prop) `{!∀ x, Decision (P x)} (l : list A) :
  selects P l (filter P l).
Proof.
  split; [apply sublist_filter|]. split.
  - apply Forall_forall. intros x Hx. by apply list_elem_of_filter in Hx as [? _].
  - intros k Hk. induction Hk as [|x k l Hk IH|x k l Hk IH]; intros HP.
    + apply sublist_nil_l.
    + inversion HP; subst. rewrite filter_cons_True by done.
      by apply sublist_skip, IH.
    + rewrite filter_cons. destruct (decide (P x)); [apply sublist_cons|]; by apply IH.
Qed.

Lemma selects_unique (P : A → Prop) (l r1 r2 : list A) :
  selects P l r1 → selects P l r2 → r1 = r2.
Proof.
  intros (S1 & F1 & M1) (S2 & F2 & M2).
  apply (anti_symm sublist); auto.
Qed.

Lemma filter_all (P : A → Prop) `{!∀ x, Decision (P x)} (l : list A) :
  Forall P l → filter P l = l.
Proof.
  induction 1 as [|x l Hx Hl IH]; [done|].
  by rewrite filter_cons_True, IH.
Qed.

Lemma filter_none (P : A → Prop) `{!∀ x, Decision (P x)} (l : list A) :
  Forall (λ x, ¬ P x) l → filter P l = [].
Proof.
  induction 1 as [|x l Hx Hl IH]; [done|].
  by rewrite filter_cons_False.
Qed.

End ListFacts.

Lemma trim_nil_iff (s : jsstring) :
  trim s = [] ↔ Forall (λ c, is_ws c = true) s.
Proof.
  unfold trim, trimEnd, trimStart. split.
  - intros H. apply dropWhile_nil_iff.
    destruct (dropWhile is_ws s) as [|c k] eqn:Hd; [done|].
    apply dropWhile_head in Hd.
    apply (f_equal reverse) in H. rewrite reverse_involutive in H.
    change (reverse []) with (@nil N) in H.
    apply dropWhile_nil_iff in H. rewrite reverse_cons in H.
    apply Forall_app in H as [_ H]. inversion H; congruence.
  - intros H. apply dropWhile_nil_iff in H. by rewrite H.
Qed.

Lemma falsy_trim_true (s : jsstring) :
  falsy (trim s) = true ↔ Forall (λ c, is_ws c = true) s.
Proof.
  rewrite <- trim_nil_iff. unfold falsy. by destruct (trim s).
Qed.

Lemma falsy_trim_false (s : jsstring) :
  falsy (trim s) = false ↔ ¬ Forall (λ c, is_ws c = true) s.
Proof.
  rewrite <- falsy_trim_true. by destruct (falsy (trim s)).
Qed.

Example trim_inner_space_kept : trim (lit "  Buy milk ") = lit "Buy milk".
Proof. reflexivity. Qed.

(** NBSP and LINE SEPARATOR are stripped like the ASCII blanks. *)
Example trim_unicode_blank : trim [160; 9; 8232; 65279] = [].
Proof. reflexivity. Qed.

(** ZERO WIDTH SPACE is not whitespace for [trim]. *)
Example trim_zero_width_space : trim [8203] = [8203].
Proof. reflexivity. Qed.

(** ** Running composed tasks *)
Section ExecFacts.

Lemma after_nil {A} (o : Outcome A) : after [] o = o.
Proof. by destruct o. Qed.

Lemma exec_bind {A B} (t : Task A) (f : A → Task B) w n s :
  exec (bind t f) w n s =
    let o := exec t w n s in
    match result o with
    | inl a => after (sent o) (exec (f a) w (n + length (sent o)) (final o))
    | inr e => {| final := final o; result := inr e; sent := sent o |}
    end.
Proof.
  revert n s. induction t as [a|e|g k IH|r k IH]; intros n s; simpl.
  - rewrite Nat.add_0_r. by rewrite after_nil.
  - done.
  - apply IH.
  - rewrite IH. simpl. destruct (result _); [|done].
    unfold after. simpl. by rewrite Nat.add_succ_r.
Qed.

Lemma exec_try_catch {A} (t : Task A) (h : Exn → Task A) w n s :
  exec (try_catch t h) w n s =
    let o := exec t w n s in
    match result o with
    | inl a => o
    | inr e => after (sent o) (exec (h e) w (n + length (sent o)) (final o))
    end.
Proof.
  revert n s. induction t as [a|e|g k IH|r k IH]; intros n s; simpl.
  - done.
  - rewrite Nat.add_0_r. by rewrite after_nil.
  - apply IH.
  - rewrite IH. simpl. destruct (result _) eqn:Hr.
    + destruct (exec _ _ _ _); simpl in *. by subst.
    + unfold after. simpl. by rewrite Nat.add_succ_r.
Qed.

Lemma exec_finally {A} (t : Task A) (fin : Task unit) w n s :
  exec (finally t fin) w n s =
    let o := exec t w n s in
    let o' := exec fin w (n + length (sent o)) (final o) in
    {| final := final o';
       result := match result o' with inl _ => result o | inr e => inr e end;
       sent := sent o ++ sent o' |}.
Proof.
  revert n s. induction t as [a|e|g k IH|r k IH]; intros n s; simpl.
  - rewrite exec_bind, Nat.add_0_r. simpl.
    destruct (result (exec fin w n s)); [|done].
    unfold after. simpl. by rewrite app_nil_r.
  - rewrite exec_bind, Nat.add_0_r. simpl.
    destruct (result (exec fin w n s)); [|done].
    unfold after. simpl. by rewrite app_nil_r.
  - apply IH.
  - rewrite IH. simpl. by rewrite Nat.add_succ_r.
Qed.

(** [exec] is the page's [advance], one request at a time, with the turn's
    [meanwhile] applied to the state while the handler waits. *)
Lemma exec_advance (t : Task unit) w n s :
  exec t w n s =
    match advance t s with
    | (s', Finished r) => {| final := s'; result := r; sent := [] |}
    | (s', Waiting r k) =>
        after [r] (exec (k (reply (w n) r)) w (S n) (meanwhile (w n) s'))
    end.
Proof.
  revert s. induction t as [a|e|g k IH|r k IH]; intros s; simpl; try done.
Qed.

Lemma for_of_cons {X} (x : X) (l : list X) (body : X → Task unit) :
  for_of (x :: l) body = bind (body x) (λ _, for_of l body).
Proof. done. Qed.

(** One iteration of the sweep: the DELETE is sent and its outcome dropped. *)
Lemma exec_sweep_body (id : Id) w n s :
  exec (try_catch (deleteTodo id) (λ _, mret tt)) w n s =
    {| final := meanwhile (w n) s; result := inl tt; sent := [DeleteTodo id] |}.
Proof.
  simpl. by destruct (reply (w n) (DeleteTodo id)) as [[]|e].
Qed.

(** The loop of the sweep: one DELETE per item, in order, whatever the
    answers; the state only moves by what the others do in the meantime. *)
Lemma exec_sweep_loop (l : list Todo) w n s :
  exec (for_of l (λ t, try_catch (deleteTodo (_id t)) (λ _, mret tt))) w n s =
    {| final := drift w n (length l) s;
       result := inl tt;
       sent := (λ t, DeleteTodo (_id t)) <$> l |}.
Proof.
  revert n s. induction l as [|t l IH]; intros n s; [done|].
  rewrite for_of_cons, exec_bind, exec_sweep_body. cbv zeta. cbn [result final sent length].
  rewrite IH. unfold after. cbn [result final sent]. by rewrite Nat.add_1_r.
Qed.

Lemma drift_todos w n len s :
  (∀ k st, todos (meanwhile (w k) st) = todos st) →
  todos (drift w n len s) = todos s.
Proof.
  intros Hw. revert n s. induction len as [|len IH]; intros n s; [done|].
  simpl. by rewrite IH, Hw.
Qed.

End ExecFacts.

(** ** The derived view *)
Section Views.

(** C2: under [active] the shown items are exactly the items that are not
    completed, in their order in [todos]; under [completed] exactly the
    completed ones, in their order; under [all] the list itself. *)
Theorem shownTodos_by_filter (s : State) :
  match filter_ s with
  | Filter_active => selects (λ t, completed t = false) (todos s) (shownTodos s)
  | Filter_completed => selects (λ t, completed t = true) (todos s) (shownTodos s)
  | Filter_all => shownTodos s = todos s
  end.
Proof.
  unfold shownTodos. destruct (filter_ s); [done| |].
  - rewrite (list_filter_iff _ (λ t, completed t = false)).
    + apply filter_selects.
    + intros t. destruct (completed t); cbn; intuition congruence.
  - rewrite (list_filter_iff _ (λ t, completed t = true)).
    + apply filter_selects.
    + intros t. destruct (completed t); cbn; intuition congruence.
Qed.

End Views.

(** ** The single-request operations *)
Section Operations.

Lemma blank_lit_spaces : blank (lit "   ").
Proof. repeat constructor. Qed.

Lemma not_blank_buy_milk : ¬ blank (lit " Buy milk ").
Proof. intros H. apply falsy_trim_true in H. discriminate H. Qed.

(** C4: Add with a title that is empty or whitespace only does nothing: no
    request is sent and the state, with [todos], [loading] and [error], is
    the one it was invoked in. *)
Theorem blank_title_add_noop (w : World) (s : State) :
  blank (newTitle s) →
  invoke handleAdd w s = {| final := s; result := inl tt; sent := [] |}.
Proof.
  intros Hb. apply falsy_trim_true in Hb.
  unfold invoke, handleAdd. by rewrite Hb.
Qed.

Lemma blank_title_add_noop_witness :
  let s := with_newTitle (lit "   ") example_state in
  blank (newTitle s) ∧
  invoke handleAdd (calm echo) s = {| final := s; result := inl tt; sent := [] |}.
Proof.
  split; [exact blank_lit_spaces|].
  apply (blank_title_add_noop (calm echo)). exact blank_lit_spaces.
Defined.

(** C3: when the request of an Add, Toggle or Remove is rejected, the
    handler returns normally, [todos] is what it was when the handler
    resumed (what it was at the invocation if nothing else changed it),
    [error] is the non-empty message of the operation and [loading] is
    false. *)
Theorem failed_operation_sets_error (op : Operation) (w : World) (s : State) (e : Exn) :
  issues op s →
  reply (w 0%nat) (request_of op s) = inr e →
  let o := invoke (handler_of op) w s in
  sent o = [request_of op s] ∧
  result o = inl tt ∧
  todos (final o) = todos (meanwhile (w 0%nat) (begin s)) ∧
  ((∀ st, todos (meanwhile (w 0%nat) st) = todos st) → todos (final o) = todos s) ∧
  error (final o) = Some (failure_message op) ∧
  failure_message op ≠ [] ∧
  loading (final o) = false.
Proof.
  intros Hsend Hrej.
  destruct op as [|todo|id]; unfold invoke; simpl in *.
  - apply falsy_trim_false in Hsend. unfold handleAdd. rewrite Hsend. simpl.
    rewrite Hrej. simpl. repeat split; try done.
    intros Hq. by rewrite Hq.
  - rewrite Hrej. simpl. repeat split; try done.
    intros Hq. by rewrite Hq.
  - rewrite Hrej. simpl. repeat split; try done.
    intros Hq. by rewrite Hq.
Qed.

Lemma failed_operation_sets_error_witness :
  let s := with_newTitle (lit " Buy milk ") example_state in
  let o := invoke handleAdd (calm rejecting) s in
  issues Add s ∧
  sent o = [PostTodo (lit "Buy milk")] ∧
  todos (final o) = example_items ∧
  error (final o) = Some (lit "Failed to add todo") ∧
  loading (final o) = false.
Proof.
  pose proof (failed_operation_sets_error Add (calm rejecting)
                (with_newTitle (lit " Buy milk ") example_state)
                (AxiosError (Some 500)) not_blank_buy_milk eq_refl)
    as (Hs & _ & Ht & _ & He & _ & Hl).
  split; [exact not_blank_buy_milk|].
  split; [exact Hs|]. split; [exact Ht|]. split; [exact He | exact Hl].
Defined.

(** C5: a successful Add with a title that is not blank puts the item the
    server returned in front of [todos], the items that were there
    following in their order, and resets [newTitle] to the empty string. *)
Theorem successful_add_prepends (w : World) (s : State) (created : Todo) :
  ¬ blank (newTitle s) →
  reply (w 0%nat) (PostTodo (trim (newTitle s))) = inl created →
  let o := invoke handleAdd w s in
  sent o = [PostTodo (trim (newTitle s))] ∧
  result o = inl tt ∧
  todos (final o) = created :: todos (meanwhile (w 0%nat) (begin s)) ∧
  ((∀ st, todos (meanwhile (w 0%nat) st) = todos st) →
     todos (final o) = created :: todos s) ∧
  newTitle (final o) = [] ∧
  error (final o) = error (meanwhile (w 0%nat) (begin s)) ∧
  loading (final o) = false.
Proof.
  intros Hsend Hok. apply falsy_trim_false in Hsend.
  unfold invoke, handleAdd. rewrite Hsend. simpl.
  rewrite Hok. simpl. repeat split; try done.
  intros Hq. by rewrite Hq.
Qed.

Lemma successful_add_prepends_witness :
  let s := with_newTitle (lit " Buy milk ") example_state in
  let o := invoke handleAdd (calm echo) s in
  ¬ blank (newTitle s) ∧
  todos (final o) =
    {| _id := lit "new"; title := lit "Buy milk"; completed := false |} :: example_items ∧
  newTitle (final o) = [].
Proof.
  pose proof (successful_add_prepends (calm echo)
                (with_newTitle (lit " Buy milk ") example_state)
                {| _id := lit "new"; title := lit "Buy milk"; completed := false |}
                not_blank_buy_milk eq_refl)
    as (_ & _ & Ht & _ & Hn & _).
  split; [exact not_blank_buy_milk|]. split; [exact Ht | exact Hn].
Defined.

(** C6: a successful Toggle puts the item the server returned at every
    position of [todos] whose item has the id of the returned item, and
    leaves every other position as it was; the length does not change.
    When one item has that id, it is replaced in place. *)
Theorem successful_toggle_replaces (w : World) (s : State) (todo updated : Todo) :
  reply (w 0%nat) (PutTodo (_id todo) (negb (completed todo))) = inl updated →
  let o := invoke (toggleCompleted todo) w s in
  let prev := todos (meanwhile (w 0%nat) (begin s)) in
  sent o = [PutTodo (_id todo) (negb (completed todo))] ∧
  result o = inl tt ∧
  length (todos (final o)) = length prev ∧
  (∀ i t, prev !! i = Some t →
     todos (final o) !! i = Some (if decide (_id t = _id updated) then updated else t)) ∧
  (∀ l1 t l2, prev = l1 ++ t :: l2 → _id t = _id updated →
     Forall (λ u, _id u ≠ _id updated) (l1 ++ l2) →
     todos (final o) = l1 ++ updated :: l2) ∧
  loading (final o) = false.
Proof.
  intros Hok. unfold invoke. simpl. rewrite Hok. simpl.
  split; [done|]. split; [done|]. split; [by rewrite length_fmap|].
  split; [|split; [|done]].
  - intros i t Hi. unfold begin in Hi. by rewrite list_lookup_fmap, Hi.
  - unfold begin. intros l1 t l2 -> Ht Hothers. apply Forall_app in Hothers as [H1 H2].
    rewrite fmap_app, fmap_cons. rewrite decide_True by done.
    f_equal; [|f_equal].
    + induction H1 as [|u l Hu Hl IH]; [done|].
      rewrite fmap_cons, decide_False by done. by f_equal.
    + induction H2 as [|u l Hu Hl IH]; [done|].
      rewrite fmap_cons, decide_False by done. by f_equal.
Qed.

Lemma successful_toggle_replaces_witness :
  let o := invoke (toggleCompleted (item "2" false)) (calm echo) example_state in
  todos (final o) = [item "1" true; item "2" true; item "3" true].
Proof.
  pose proof (successful_toggle_replaces (calm echo) example_state
                (item "2" false) (item "2" true) eq_refl)
    as (_ & _ & _ & _ & Hone & _).
  apply (Hone [item "1" true] (item "2" false) [item "3" true]).
  - reflexivity.
  - reflexivity.
  - repeat constructor; discriminate.
Defined.

(** C7: a successful Remove leaves exactly the items whose id is not the
    given one, in their order. *)
Theorem successful_remove_filters (w : World) (s : State) (id : Id) (d : unit) :
  reply (w 0%nat) (DeleteTodo id) = inl d →
  let o := invoke (removeTodo id) w s in
  let prev := todos (meanwhile (w 0%nat) (begin s)) in
  sent o = [DeleteTodo id] ∧
  result o = inl tt ∧
  todos (final o) = filter (λ t, _id t ≠ id) prev ∧
  selects (λ t, _id t ≠ id) prev (todos (final o)) ∧
  (∀ t, t ∈ prev → _id t = id → t ∉ todos (final o)) ∧
  loading (final o) = false.
Proof.
  intros Hok. unfold invoke. simpl. rewrite Hok. simpl.
  repeat split; try done; try apply filter_selects.
  intros t _ Ht Hin. apply list_elem_of_filter in Hin as [Hne _]. by apply Hne.
Qed.

Lemma successful_remove_filters_witness :
  let o := invoke (removeTodo (lit "2")) (calm echo) example_state in
  todos (final o) = [item "1" true; item "3" true].
Proof.
  pose proof (successful_remove_filters (calm echo) example_state (lit "2") tt eq_refl)
    as (_ & _ & Ht & _).
  exact Ht.
Defined.

End Operations.

(** ** The clear-completed sweep *)
Section Sweep.

Lemma filter_ext_in {A} (P Q : A → Prop)
    `{!∀ x, Decision (P x)} `{!∀ x, Decision (Q x)} (l : list A) :
  (∀ x, x ∈ l → (P x ↔ Q x)) → filter P l = filter Q l.
Proof.
  induction l as [|x l IH]; intros Hext; [done|].
  rewrite !filter_cons.
  rewrite IH by (intros y Hy; apply Hext; by right).
  pose proof (Hext x (list_elem_of_here x l)) as Hx.
  destruct (decide (P x)), (decide (Q x)); tauto || done.
Qed.

Lemma NoDup_fmap_inj_on {A B} (f : A → B) (l : list A) x y :
  NoDup (f <$> l) → x ∈ l → y ∈ l → f x = f y → x = y.
Proof.
  induction l as [|z l IH]; intros Hnd Hx Hy Hf; [by inversion Hx|].
  rewrite fmap_cons in Hnd. apply NoDup_cons in Hnd as [Hz Hnd].
  apply elem_of_cons in Hx as [->|Hx]; apply elem_of_cons in Hy as [->|Hy].
  - done.
  - exfalso. apply Hz. rewrite Hf. by apply list_elem_of_fmap_2.
  - exfalso. apply Hz. rewrite <- Hf. by apply list_elem_of_fmap_2.
  - by apply IH.
Qed.

(** With pairwise distinct ids, the items that are not completed are the
    items whose id is not the id of a completed item. *)
Lemma not_completed_by_id (l : list Todo) :
  NoDup (_id <$> l) →
  filter (λ t, ¬ completed t) l =
  filter (λ t, _id t ∉ _id <$> filter (λ t, completed t) l) l.
Proof.
  intros Hnd. apply filter_ext_in. intros t Ht. split.
  - intros Hn Hin. apply list_elem_of_fmap in Hin as (t' & Hid & Hin').
    apply list_elem_of_filter in Hin' as [Hc Hin'].
    assert (t = t') as -> by (by apply (NoDup_fmap_inj_on _id l)).
    done.
  - intros Hn Hc. apply Hn. apply list_elem_of_fmap_2.
    by apply list_elem_of_filter.
Qed.

(** What the sweep does once it has found completed items [l]. *)
Lemma exec_sweep (l : list Todo) w s :
  exec (setLoading true;;
        setError None;;
        finally
          (try_catch
             (for_of l (λ t, try_catch (deleteTodo (_id t)) (λ _, mret tt));;
              setTodos (λ prev, filter (λ t, ¬ completed t) prev))
             (λ _, setError (Some (lit "Failed to clear completed"))))
          (setLoading false)) w 0 s =
    {| final := with_loading false
                  (with_todos (filter (λ t, ¬ completed t))
                     (drift w 0 (length l) (begin s)));
       result := inl tt;
       sent := (λ t, DeleteTodo (_id t)) <$> l |}.
Proof.
  remember (for_of l _) as loop eqn:Hloop.
  simpl. rewrite exec_finally, exec_try_catch.
  unfold mbind, Task_bind. rewrite exec_bind. subst loop.
  rewrite exec_sweep_loop. simpl. by rewrite !app_nil_r.
Qed.

Lemma invoke_clearCompleted w s :
  invoke clearCompleted w s =
    let l := filter (λ t, completed t) (todos s) in
    if decide (length l = 0%nat)
    then {| final := s; result := inl tt; sent := [] |}
    else {| final := with_loading false
                       (with_todos (filter (λ t, ¬ completed t))
                          (drift w 0 (length l) (begin s)));
            result := inl tt;
            sent := (λ t, DeleteTodo (_id t)) <$> l |}.
Proof.
  unfold invoke, clearCompleted. cbv zeta.
  destruct (decide _); [done|]. apply exec_sweep.
Qed.

(** C10: when no item is completed at the invocation, the sweep returns
    at once: no request is sent and the state, with [todos], [loading] and
    [error], is the one it was invoked in. *)
Theorem sweep_nothing_completed_noop (w : World) (s : State) :
  Forall (λ t, completed t = false) (todos s) →
  invoke clearCompleted w s = {| final := s; result := inl tt; sent := [] |}.
Proof.
  intros Hnone. rewrite invoke_clearCompleted. cbv zeta.
  rewrite filter_none; [done|].
  eapply Forall_impl; [exact Hnone|]. intros t Ht. rewrite Ht. exact (λ x, x).
Qed.

Lemma sweep_nothing_completed_noop_witness :
  let s := with_todos (λ _, [item "1" false; item "2" false]) (with_error (Some (lit "x")) initial) in
  Forall (λ t, completed t = false) (todos s) ∧
  invoke clearCompleted (calm rejecting) s = {| final := s; result := inl tt; sent := [] |}.
Proof.
  assert (Forall (λ t, completed t = false) [item "1" false; item "2" false]) as H
    by (repeat constructor).
  split; [exact H|].
  apply (sweep_nothing_completed_noop (calm rejecting)). exact H.
Defined.

(** The list the sweep leaves: the items that are not completed in the
    list as it is when the last DELETE has come back. *)
Lemma sweep_final_todos (w : World) (s : State) :
  todos (final (invoke clearCompleted w s)) =
    filter (λ t, ¬ completed t)
      (todos (drift w 0 (length (snapshot_ids s)) (begin s))).
Proof.
  rewrite invoke_clearCompleted. cbv zeta.
  unfold snapshot_ids. rewrite length_fmap.
  destruct (decide _) as [Hlen|Hlen]; simpl; [|done].
  apply nil_length_inv in Hlen. rewrite Hlen. simpl.
  symmetry. apply filter_all, Forall_forall. intros t Ht Hc.
  by apply (filter_nil_not_elem_of _ _ t Hlen).
Qed.

(** C9: after the sweep no completed item is left in [todos]: the final
    update keeps the items that are not completed in the list as it is
    when the last DELETE has come back, whether or not their ids were
    among the completed ones at the invocation. *)
Theorem sweep_leaves_no_completed (w : World) (s : State) :
  let o := invoke clearCompleted w s in
  Forall (λ t, completed t = false) (todos (final o)) ∧
  todos (final o) =
    filter (λ t, ¬ completed t)
      (todos (drift w 0 (length (snapshot_ids s)) (begin s))).
Proof.
  cbv zeta. split; [|apply sweep_final_todos].
  rewrite sweep_final_todos. apply Forall_forall. intros t Ht.
  apply list_elem_of_filter in Ht as [Ht _]. by destruct (completed t).
Qed.

(** C1, as stated, fails: the sweep is invoked on items 1 (completed),
    2 (not completed) and 3 (completed); while its first DELETE is in
    flight the user ticks item 2 and the server confirms.  The final update
    then drops item 2 as well, although its id was not in the snapshot. *)
Lemma sweep_snapshot_counterexample :
  ¬ removes_snapshot_only toggled_meanwhile example_state.
Proof.
  intros [_ Hremain].
  destruct (Hremain (item "2" false)) as (t' & Hin & _).
  - apply (bool_decide_unpack _). by vm_compute.
  - apply (bool_decide_unpack _). by vm_compute.
  - assert (todos (final (invoke clearCompleted toggled_meanwhile example_state)) = [])
      as Hempty by (by vm_compute).
    rewrite Hempty in Hin. by apply elem_of_nil in Hin.
Qed.

(** The same run on the page itself: the sweep is clicked, then the
    checkbox of item 2; the PUT comes back first, then the two DELETEs. *)
Example sweep_with_toggle_on_page :
  let p0 := {| current := example_state; handlers := [] |} in
  let p1 := fire clearCompleted p0 in
  let p2 := fire (toggleCompleted (item "2" false)) p1 in
  let p3 := respond 1 echo p2 in
  let p4 := respond 0 echo p3 in
  let p5 := respond 0 echo p4 in
  todos (current p3) = [item "1" true; item "2" true; item "3" true] ∧
  returned 0 p5 = true ∧ returned 1 p5 = true ∧
  todos (current p5) = [] ∧
  current p5 = final (invoke clearCompleted toggled_meanwhile example_state).
Proof. repeat split; reflexivity. Qed.

(** With two items of the same id, one completed and one not, the flags do
    not follow the snapshot: the sweep keeps the second, whose id is in the
    snapshot. *)
Example sweep_duplicate_ids :
  let s := with_todos (λ _, [item "1" true; item "1" false]) initial in
  snapshot_ids s = [lit "1"] ∧
  todos (final (invoke clearCompleted (calm echo) s)) = [item "1" false].
Proof. split; reflexivity. Qed.

Lemma filter_eq_iff {A} (P Q : A → Prop)
    `{!∀ x, Decision (P x)} `{!∀ x, Decision (Q x)} (l : list A) :
  filter P l = filter Q l ↔ ∀ x, x ∈ l → (P x ↔ Q x).
Proof.
  split; [|apply filter_ext_in].
  intros Heq x Hx. split; intros Hp.
  - assert (x ∈ filter P l) as Hin by (by apply list_elem_of_filter).
    rewrite Heq in Hin. by apply list_elem_of_filter in Hin as [? _].
  - assert (x ∈ filter Q l) as Hin by (by apply list_elem_of_filter).
    rewrite <- Heq in Hin. by apply list_elem_of_filter in Hin as [? _].
Qed.

(** Removing the completed items is removing the items with an id of [ids]
    exactly when the flags follow [ids]. *)
Lemma by_flag_is_by_id (ids : list Id) (l : list Todo) :
  filter (λ t, ¬ completed t) l = filter (λ t, _id t ∉ ids) l ↔
  flags_follow_snapshot ids l.
Proof.
  unfold flags_follow_snapshot. rewrite filter_eq_iff, Forall_forall.
  split; intros H t Ht; specialize (H t Ht).
  - destruct (completed t), (bool_decide_reflect (_id t ∈ ids)); simpl in *;
      try done; exfalso; tauto.
  - rewrite H. destruct (bool_decide_reflect (_id t ∈ ids)); simpl; tauto.
Qed.

(** C1, amended: in every run of the sweep the ids of the completed items
    are taken once, from the list of the invocation, and one DELETE is sent
    for each, in order, whatever the answers and whatever else happens
    meanwhile; the sweep returns normally.  Afterwards exactly the items
    whose id was in that snapshot are gone from the list the final update
    found, the others remaining in their order, if and only if in that list
    the completed items are the items with an id of the snapshot: nothing
    else has ticked an item outside the snapshot or unticked one inside it
    while the sweep was in flight.  That is so in particular when nothing
    else changed [todos] and its ids are pairwise distinct. *)
Theorem sweep_removes_snapshot (w : World) (s : State) :
  let o := invoke clearCompleted w s in
  let ids := snapshot_ids s in
  let found := todos (drift w 0 (length ids) (begin s)) in
  sent o = DeleteTodo <$> ids ∧
  result o = inl tt ∧
  (todos (final o) = filter (λ t, _id t ∉ ids) found ↔ flags_follow_snapshot ids found) ∧
  (flags_follow_snapshot ids found →
     selects (λ t, _id t ∉ ids) found (todos (final o))) ∧
  (flags_follow_snapshot ids found →
     (∀ t, t ∈ todos s → _id t ∈ _id <$> found) →
     removes_snapshot_only w s) ∧
  (keeps_todos w → NoDup (_id <$> todos s) →
     found = todos s ∧ flags_follow_snapshot ids found).
Proof.
  cbv zeta.
  split; [|split; [|split; [|split; [|split]]]].
  - rewrite invoke_clearCompleted. cbv zeta. unfold snapshot_ids.
    destruct (decide _) as [Hlen|Hlen]; simpl.
    + apply nil_length_inv in Hlen. by rewrite Hlen.
    + by rewrite <- list_fmap_compose.
  - rewrite invoke_clearCompleted. cbv zeta. by destruct (decide _).
  - rewrite sweep_final_todos. apply by_flag_is_by_id.
  - intros Hflags. apply by_flag_is_by_id in Hflags.
    rewrite sweep_final_todos, Hflags. apply filter_selects.
  - intros Hflags Hstay. apply by_flag_is_by_id in Hflags.
    unfold removes_snapshot_only. cbv zeta. rewrite sweep_final_todos, Hflags. split.
    + intros t Ht. by apply list_elem_of_filter in Ht as [? _].
    + intros t Ht Hid. apply Hstay, list_elem_of_fmap in Ht as (t' & Heq & Ht').
      exists t'. split; [|done]. apply list_elem_of_filter. split; [|done].
      by rewrite <- Heq.
  - intros Hkeep Hnd. rewrite drift_todos by done. simpl. split; [done|].
    apply by_flag_is_by_id. by apply not_completed_by_id.
Qed.

(** The example of the spec: from items 1 (completed), 2 (not completed)
    and 3 (completed), with every DELETE rejected, the sweep leaves item 2.
    And with an item added while the sweep is in flight: the new item and
    item 2 remain. *)
Lemma sweep_removes_snapshot_example :
  let o := invoke clearCompleted (calm rejecting) example_state in
  let o' := invoke clearCompleted added_meanwhile example_state in
  (sent o = [DeleteTodo (lit "1"); DeleteTodo (lit "3")] ∧
   todos (final o) = [item "2" false]) ∧
  (sent o' = [DeleteTodo (lit "1"); DeleteTodo (lit "3")] ∧
   todos (final o')
   = [ {| _id := lit "new"; title := lit "Buy milk"; completed := false |}; item "2" false ] ∧
   removes_snapshot_only added_meanwhile example_state).
Proof.
  split.
  - pose proof (sweep_removes_snapshot (calm rejecting) example_state)
      as (Hs & _ & [_ Ht] & _).
    split; [exact Hs|]. apply Ht.
    apply (bool_decide_unpack _). by vm_compute.
  - pose proof (sweep_removes_snapshot added_meanwhile example_state)
      as (Hs & _ & [_ Ht] & _ & Hrem & _).
    assert (flags_follow_snapshot (snapshot_ids example_state)
              (todos (drift added_meanwhile 0 (length (snapshot_ids example_state))
                        (begin example_state)))) as Hflags.
    { apply (bool_decide_unpack _). by vm_compute. }
    split; [exact Hs|]. split; [exact (Ht Hflags)|].
    apply (Hrem Hflags). intros t Ht'.
    apply (bool_decide_unpack _). revert t Ht'. apply Forall_forall.
    apply (bool_decide_unpack _). by vm_compute.
Defined.

End Sweep.

(** ** The Store Gateway's Create *)
Section GatewayCreate.
Import Gateway.

Variable assign : list Todo → Id.

(** The store never hands out an id that an item of the collection has. *)
Hypothesis assign_fresh : ∀ store, assign store ∉ _id <$> store.

Lemma creates_ids (store : list Todo) (inputs : list CreateInput) :
  let '(rs, store') := creates assign store inputs in
  store' = store ++ created rs ∧
  NoDup (_id <$> created rs) ∧
  (∀ x, x ∈ _id <$> created rs → x ∉ _id <$> store).
Proof.
  revert store. induction inputs as [|i inputs IH]; intros store; simpl.
  - split; [by rewrite app_nil_r|]. split; [constructor|].
    intros x Hx. by apply elem_of_nil in Hx.
  - unfold create. destruct (input_title i) as [t|].
    + destruct (falsy (trim t)).
      * specialize (IH store). by destruct (creates assign store inputs).
      * specialize (IH (store ++ [ {| _id := assign store; title := t;
                                      completed := default false (input_completed i) |} ])).
        destruct (creates assign _ inputs) as [rs store'].
        destruct IH as (-> & Hnd & Hnew).
        unfold created in *. simpl. rewrite <- app_assoc. split; [done|].
        split.
        -- apply NoDup_cons. split; [|done].
           intros Hin. apply (Hnew _ Hin). rewrite fmap_app.
           apply elem_of_app. right. simpl. apply list_elem_of_here.
        -- intros x Hx. apply elem_of_cons in Hx as [->|Hx].
           ++ apply assign_fresh.
           ++ intros Hin. apply (Hnew _ Hx). rewrite fmap_app.
              apply elem_of_app. by left.
    + specialize (IH store). by destruct (creates assign store inputs).
Qed.

(** C8: Create fails with [ValidationError] when the title is missing or
    empty after trimming; otherwise it returns the new item, stored with
    the id the store assigned, an id no stored item had, and with
    [completed] false unless it was supplied.  Over any sequence of
    Creates the ids of the returned items are pairwise distinct. *)
Theorem create_contract (store : list Todo) (i : CreateInput) (inputs : list CreateInput) :
  match input_title i with
  | None => create assign store i = inl ValidationError
  | Some t =>
      if decide (trim t = [])
      then create assign store i = inl ValidationError
      else ∃ item,
             create assign store i = inr (item, store ++ [item]) ∧
             _id item = assign store ∧
             (_id item ∉ _id <$> store) ∧
             title item = t ∧
             completed item = match input_completed i with
                              | None => false
                              | Some c => c
                              end
  end ∧
  NoDup (_id <$> created (fst (creates assign store inputs))).
Proof.
  split.
  - unfold create. destruct (input_title i) as [t|]; [|done].
    destruct (decide (trim t = [])) as [Ht|Ht].
    + by rewrite Ht.
    + destruct (trim t) eqn:Htrim; [done|]. simpl.
      eexists. split; [done|]. simpl.
      split; [done|]. split; [apply assign_fresh|]. split; [done|].
      by destruct (input_completed i).
  - pose proof (creates_ids store inputs) as H.
    destruct (creates assign store inputs) as [rs store']. simpl.
    by destruct H as (_ & Hnd & _).
Qed.

End GatewayCreate.

Section GatewayExample.
Import Gateway.

Lemma longer_id_fresh (store : list Todo) : longer_id store ∉ _id <$> store.
Proof.
  intros Hin. apply list_elem_of_fmap in Hin as (t & Hid & Ht).
  apply (f_equal length) in Hid. unfold longer_id in Hid.
  rewrite length_replicate in Hid.
  assert (length (_id t) ≤ max_list ((λ t, length (_id t)) <$> store))%nat as Hle.
  { apply max_list_elem_of_le. by apply (list_elem_of_fmap_2 (λ t, length (_id t))). }
  lia.
Qed.

Lemma create_contract_witness :
  let store := [item "1" true] in
  let milk := {| input_title := Some (lit "Buy milk"); input_completed := None |} in
  let spaces := {| input_title := Some (lit "   "); input_completed := None |} in
  (∀ st, longer_id st ∉ _id <$> st) ∧
  (∃ it, create longer_id store milk = inr (it, store ++ [it]) ∧
         _id it = lit "00" ∧ title it = lit "Buy milk" ∧ completed it = false) ∧
  NoDup (_id <$> created (fst (creates longer_id store [milk; spaces; milk; milk]))).
Proof.
  cbv zeta. split; [exact longer_id_fresh|].
  pose proof (create_contract longer_id longer_id_fresh [item "1" true]
                {| input_title := Some (lit "Buy milk"); input_completed := None |}
                [ {| input_title := Some (lit "Buy milk"); input_completed := None |};
                  {| input_title := Some (lit "   "); input_completed := None |};
                  {| input_title := Some (lit "Buy milk"); input_completed := None |};
                  {| input_title := Some (lit "Buy milk"); input_completed := None |} ])
    as [Hone Hmany].
  split; [|exact Hmany].
  simpl in Hone. destruct Hone as (it & Hc & Hid & _ & Ht & Hd).
  exists it. split; [exact Hc|]. split; [exact Hid|]. split; [exact Ht | exact Hd].
Defined.

End GatewayExample.


(** * Further properties of the list controller *)

(** ** Counters and filters of the render *)
Section Counters.

Lemma filter_lengths {A} (P : A → Prop) `{!∀ x, Decision (P x)} (l : list A) :
  (length (filter (λ x, ¬ P x) l) + length (filter P l) = length l)%nat.
Proof.
  induction l as [|x l IH]; [done|].
  rewrite !filter_cons.
  destruct (decide (P x)), (decide (¬ P x)); simpl; try tauto; lia.
Qed.

(** X1: the "Pending" counter and the number of completed items add up to
    the "Total" of the header; the counter is the length of what the
    [active] filter shows. *)
Theorem pendingCount_and_completed (s : State) :
  (pendingCount s + length (filter (λ t, completed t) (todos s)) = total s)%nat ∧
  (pendingCount s ≤ total s)%nat ∧
  pendingCount s = length (shownTodos (with_filter Filter_active s)) ∧
  (total s - pendingCount s)%nat = length (shownTodos (with_filter Filter_completed s)).
Proof.
  pose proof (filter_lengths (λ t : Todo, completed t) (todos s)) as H.
  unfold pendingCount, total, shownTodos. simpl. repeat split; lia.
Qed.

(** X2: every item is shown under exactly one of [active] and
    [completed]: the two views together are a rearrangement of [todos], and
    an item of one is not in the other. *)
Theorem active_completed_partition (s : State) :
  shownTodos (with_filter Filter_active s) ++ shownTodos (with_filter Filter_completed s)
    ≡ₚ todos s ∧
  (∀ t, t ∈ shownTodos (with_filter Filter_active s) →
        t ∉ shownTodos (with_filter Filter_completed s)).
Proof.
  unfold shownTodos. simpl. split.
  - rewrite (comm app). apply (filter_app_complement (λ t : Todo, completed t)).
  - intros t Ha Hc. apply list_elem_of_filter in Ha as [Ha _].
    apply list_elem_of_filter in Hc as [Hc _]. by apply Ha.
Qed.

(** X3: the placeholder for an empty list is shown under [all] exactly when
    there is no item, under [active] exactly when nothing is pending, and
    under [completed] exactly when everything is pending. *)
Theorem showsEmpty_by_filter (s : State) :
  showsEmpty s = true ↔
    match filter_ s with
    | Filter_all => todos s = []
    | Filter_active => pendingCount s = 0%nat
    | Filter_completed => pendingCount s = total s
    end.
Proof.
  pose proof (filter_lengths (λ t : Todo, completed t) (todos s)) as H.
  unfold showsEmpty, shownTodos, pendingCount, total in *.
  rewrite bool_decide_eq_true.
  destruct (filter_ s).
  - split; [apply nil_length_inv | by intros ->].
  - done.
  - lia.
Qed.

End Counters.

(** ** The initial load *)
Section Load.

(** X4: when the GET of the mount effect is fulfilled, [todos] becomes the
    list the server sent, whatever it was before, and [loading] is false. *)
Theorem load_replaces_todos (w : World) (s : State) (data : list Todo) :
  reply (w 0%nat) GetTodos = inl data →
  let o := invoke loadTodos w s in
  sent o = [GetTodos] ∧
  result o = inl tt ∧
  todos (final o) = data ∧
  error (final o) = error (meanwhile (w 0%nat) (begin s)) ∧
  loading (final o) = false.
Proof.
  intros Hok. unfold invoke. simpl. rewrite Hok. by simpl.
Qed.

Lemma load_replaces_todos_witness :
  let o := invoke loadTodos (calm (λ r, match r return Data r + Exn with
                                        | GetTodos => inl example_items
                                        | r' => rejecting r'
                                        end)) (with_todos (λ _, [item "9" false]) initial) in
  todos (final o) = example_items ∧ error (final o) = None ∧ loading (final o) = false.
Proof.
  pose proof (load_replaces_todos
                (calm (λ r, match r return Data r + Exn with
                            | GetTodos => inl example_items
                            | r' => rejecting r'
                            end))
                (with_todos (λ _, [item "9" false]) initial) example_items eq_refl)
    as (_ & _ & Ht & He & Hl).
  split; [exact Ht|]. split; [exact He | exact Hl].
Defined.

(** X5: when the GET of the mount effect is rejected, [todos] is left as it
    is (empty on the first load), [error] is the load message and [loading]
    is false; nothing is thrown. *)
Theorem load_failure_keeps_todos (w : World) (s : State) (e : Exn) :
  reply (w 0%nat) GetTodos = inr e →
  let o := invoke loadTodos w s in
  sent o = [GetTodos] ∧
  result o = inl tt ∧
  todos (final o) = todos (meanwhile (w 0%nat) (begin s)) ∧
  error (final o) = Some (lit "Failed to load todos. Is the server running?") ∧
  loading (final o) = false.
Proof.
  intros Hrej. unfold invoke. simpl. rewrite Hrej. by simpl.
Qed.

Lemma load_failure_keeps_todos_witness :
  let o := invoke loadTodos (calm rejecting) initial in
  todos (final o) = [] ∧
  error (final o) = Some (lit "Failed to load todos. Is the server running?") ∧
  loading (final o) = false.
Proof.
  pose proof (load_failure_keeps_todos (calm rejecting) initial
                (AxiosError (Some 500)) eq_refl)
    as (_ & _ & Ht & He & Hl).
  split; [exact Ht|]. split; [exact He | exact Hl].
Defined.

End Load.

(** ** All handlers *)
Section AllHandlers.

(** X6: no handler lets an exception escape, whatever the server answers
    and whatever else happens meanwhile.  A handler that sent nothing left
    the state as it was; a handler that sent something ends with [loading]
    false. *)
Theorem handlers_never_throw (h : Handler) (w : World) (s : State) :
  let o := invoke (run_of h) w s in
  result o = inl tt ∧
  (sent o = [] → final o = s) ∧
  (sent o ≠ [] → loading (final o) = false).
Proof.
  destruct h as [| |todo|id|]; cbv zeta.
  - unfold invoke. simpl. by destruct (reply (w 0%nat) GetTodos).
  - unfold invoke, run_of, handleAdd. destruct (falsy (trim (newTitle s))); simpl.
    + done.
    + by destruct (reply (w 0%nat) (PostTodo (trim (newTitle s)))).
  - unfold invoke. simpl.
    by destruct (reply (w 0%nat) (PutTodo (_id todo) (negb (completed todo)))).
  - unfold invoke. simpl. by destruct (reply (w 0%nat) (DeleteTodo id)).
  - simpl run_of. rewrite invoke_clearCompleted. cbv zeta.
    destruct (decide _) as [Hlen|Hlen]; simpl; [done|].
    split; [done|]. split; [|done].
    intros Hnil. apply fmap_nil_inv in Hnil. by rewrite Hnil in Hlen.
Qed.

(** X7: a handler either returns at once without touching the state, or
    suspends on its first request in the state of its invocation with
    [loading] true and [error] cleared and nothing else changed: while the
    request is in flight the page shows "Loading" and no error. *)
Theorem in_flight_state (h : Handler) (s : State) :
  advance (run_of h s) s = (s, Finished (inl tt)) ∨
  ∃ r k, advance (run_of h s) s = (begin s, Waiting r k).
Proof.
  destruct h as [| |todo|id|]; simpl.
  - right. exists GetTodos. eexists. reflexivity.
  - unfold handleAdd. destruct (falsy (trim (newTitle s))); simpl; [by left|].
    right. exists (PostTodo (trim (newTitle s))). eexists. reflexivity.
  - right. exists (PutTodo (_id todo) (negb (completed todo))). eexists. reflexivity.
  - right. exists (DeleteTodo id). eexists. reflexivity.
  - unfold clearCompleted. cbv zeta.
    destruct (filter (λ t, completed t) (todos s)) as [|t l]; simpl; [by left|].
    right. exists (DeleteTodo (_id t)). eexists. reflexivity.
Qed.

End AllHandlers.

(** ** What the operations do to the list, in every world *)
Section ListInvariants.

Lemma replace_by_id_ids (updated : Todo) (l : list Todo) :
  _id <$> ((λ t, if decide (_id t = _id updated) then updated else t) <$> l) = _id <$> l.
Proof.
  induction l as [|t l IH]; [done|].
  rewrite !fmap_cons, IH. f_equal. by destruct (decide _).
Qed.

Lemma replace_by_id_absent (updated : Todo) (l : list Todo) :
  _id updated ∉ _id <$> l →
  (λ t, if decide (_id t = _id updated) then updated else t) <$> l = l.
Proof.
  induction l as [|t l IH]; [done|]. rewrite !fmap_cons. intros Hnot.
  apply not_elem_of_cons in Hnot as [Hne Hnot].
  rewrite decide_False by done. by rewrite IH.
Qed.

(** X8: a Toggle never changes which ids are on the list, nor their order,
    whether the request succeeds or fails and whatever item the server
    returns: it adds nothing, removes nothing and keeps distinct ids
    distinct. *)
Theorem toggle_keeps_ids (w : World) (s : State) (todo : Todo) :
  let o := invoke (toggleCompleted todo) w s in
  let prev := todos (meanwhile (w 0%nat) (begin s)) in
  _id <$> todos (final o) = _id <$> prev ∧
  length (todos (final o)) = length prev ∧
  (NoDup (_id <$> prev) → NoDup (_id <$> todos (final o))).
Proof.
  cbv zeta. unfold invoke. simpl.
  destruct (reply (w 0%nat) (PutTodo (_id todo) (negb (completed todo)))) as [updated|e];
    simpl.
  - rewrite replace_by_id_ids, length_fmap. auto.
  - auto.
Qed.

(** X9: Remove and the sweep only take items away: whatever the answers,
    the list afterwards is a subsequence of the list the final update found,
    so nothing is added or reordered and distinct ids stay distinct. *)
Theorem remove_and_sweep_only_remove (w : World) (s : State) (id : Id) :
  let o := invoke (removeTodo id) w s in
  let o' := invoke clearCompleted w s in
  let prev := todos (meanwhile (w 0%nat) (begin s)) in
  let prev' := todos (drift w 0 (length (snapshot_ids s)) (begin s)) in
  todos (final o) `sublist_of` prev ∧
  (NoDup (_id <$> prev) → NoDup (_id <$> todos (final o))) ∧
  todos (final o') `sublist_of` prev' ∧
  (NoDup (_id <$> prev') → NoDup (_id <$> todos (final o'))).
Proof.
  cbv zeta.
  assert (todos (final (invoke (removeTodo id) w s))
            `sublist_of` todos (meanwhile (w 0%nat) (begin s))) as Hrem.
  { unfold invoke. simpl. destruct (reply (w 0%nat) (DeleteTodo id)); simpl.
    - apply sublist_filter.
    - done. }
  assert (todos (final (invoke clearCompleted w s))
            `sublist_of` todos (drift w 0 (length (snapshot_ids s)) (begin s))) as Hsw.
  { rewrite sweep_final_todos. apply sublist_filter. }
  split; [done|]. split; [|split; [done|]].
  - intros Hnd. eapply sublist_NoDup; [exact Hnd|]. by apply fmap_sublist.
  - intros Hnd. eapply sublist_NoDup; [exact Hnd|]. by apply fmap_sublist.
Qed.

(** X10: a Remove of an id that is not on the list when the answer
    arrives (the item went away meanwhile) leaves the list as it is. *)
Theorem remove_absent_id (w : World) (s : State) (id : Id) :
  id ∉ _id <$> todos (meanwhile (w 0%nat) (begin s)) →
  todos (final (invoke (removeTodo id) w s)) = todos (meanwhile (w 0%nat) (begin s)).
Proof.
  intros Habs. unfold invoke. simpl.
  destruct (reply (w 0%nat) (DeleteTodo id)); simpl; [|done].
  apply filter_all, Forall_forall. intros t Ht Heq. apply Habs.
  rewrite <- Heq. by apply list_elem_of_fmap_2.
Qed.

Lemma remove_absent_id_witness :
  todos (final (invoke (removeTodo (lit "7")) (calm echo) example_state)) = example_items.
Proof.
  apply (remove_absent_id (calm echo) example_state (lit "7")).
  apply (bool_decide_unpack _). by vm_compute.
Defined.

(** X11: when the answer to a Toggle arrives after the item has left the
    list, the list stays as it is: the returned item is not put back. *)
Theorem toggle_of_removed_item (w : World) (s : State) (todo updated : Todo) :
  reply (w 0%nat) (PutTodo (_id todo) (negb (completed todo))) = inl updated →
  _id updated ∉ _id <$> todos (meanwhile (w 0%nat) (begin s)) →
  todos (final (invoke (toggleCompleted todo) w s)) = todos (meanwhile (w 0%nat) (begin s)).
Proof.
  intros Hok Habs. unfold invoke. simpl. rewrite Hok. simpl.
  by apply replace_by_id_absent.
Qed.

Lemma toggle_of_removed_item_witness :
  todos (final (invoke (toggleCompleted (item "2" false)) removed_meanwhile example_state))
  = [item "1" true; item "3" true].
Proof.
  apply (toggle_of_removed_item removed_meanwhile example_state
           (item "2" false) (item "2" true) eq_refl).
  apply (bool_decide_unpack _). by vm_compute.
Defined.

End ListInvariants.

(** ** More on the sweep *)
Section SweepMore.

(** X12: in every world the sweep sends one DELETE per item that was
    completed at the invocation, in the order of the list and whatever the
    answers, and it never reports an error: even with every DELETE rejected
    [error] is what the start of the sweep and the others left, [None] when
    nothing else touched it. *)
Theorem sweep_requests_and_error (w : World) (s : State) :
  let o := invoke clearCompleted w s in
  let n := length (snapshot_ids s) in
  sent o = DeleteTodo <$> snapshot_ids s ∧
  length (sent o) = (total s - pendingCount s)%nat ∧
  (snapshot_ids s ≠ [] → error (final o) = error (drift w 0 n (begin s))) ∧
  (snapshot_ids s ≠ [] → quiet w → error (final o) = None).
Proof.
  cbv zeta. rewrite invoke_clearCompleted. cbv zeta. unfold snapshot_ids.
  pose proof (filter_lengths (λ t : Todo, completed t) (todos s)) as Hlen.
  unfold total, pendingCount.
  destruct (decide _) as [Hnil|Hne]; simpl.
  - apply nil_length_inv in Hnil. rewrite Hnil in *. simpl in *.
    split; [done|]. split; [lia|]. by split.
  - rewrite length_fmap. split; [by rewrite <- list_fmap_compose|].
    rewrite length_fmap. split; [lia|]. split; [done|].
    intros _ Hq.
    assert (∀ k m st, drift w k m st = st) as Hdrift.
    { intros k m. revert k. induction m as [|m IH]; intros k st; [done|].
      simpl. by rewrite Hq, IH. }
    by rewrite Hdrift.
Qed.

(** X13: the sweep is idempotent: a second sweep, invoked in the state the
    first one left, finds nothing completed, sends nothing and changes
    nothing. *)
Theorem sweep_twice (w w' : World) (s : State) :
  let s1 := final (invoke clearCompleted w s) in
  invoke clearCompleted w' s1 = {| final := s1; result := inl tt; sent := [] |}.
Proof.
  cbv zeta. rewrite (invoke_clearCompleted w'). cbv zeta.
  rewrite filter_none; [done|].
  rewrite sweep_final_todos. apply Forall_forall. intros t Ht.
  by apply list_elem_of_filter in Ht as [Ht _].
Qed.

(** X14: after a sweep everything left is pending, so "Pending" equals
    "Total"; and when nothing else changed the list meanwhile the sweep did
    not change "Pending". *)
Theorem sweep_pending_count (w : World) (s : State) :
  let o := invoke clearCompleted w s in
  pendingCount (final o) = total (final o) ∧
  (keeps_todos w → pendingCount (final o) = pendingCount s).
Proof.
  cbv zeta. unfold pendingCount, total. rewrite sweep_final_todos.
  assert (∀ l : list Todo,
            filter (λ t, ¬ completed t) (filter (λ t, ¬ completed t) l)
            = filter (λ t, ¬ completed t) l) as Hidem.
  { intros l. apply filter_all, Forall_forall. intros t Ht.
    by apply list_elem_of_filter in Ht as [Ht _]. }
  rewrite Hidem. split; [done|].
  intros Hk. by rewrite drift_todos.
Qed.

End SweepMore.

(** ** The title that is posted *)
Section PostedTitle.

Lemma dropWhile_snoc_false {A} (p : A → bool) (l : list A) (c : A) :
  p c = false → dropWhile p (l ++ [c]) = dropWhile p l ++ [c].
Proof.
  intros Hc. induction l as [|x l IH]; simpl.
  - by rewrite Hc.
  - by destruct (p x).
Qed.

Lemma dropWhile_head_false {A} (p : A → bool) (c : A) (l : list A) :
  p c = false → dropWhile p (c :: l) = c :: l.
Proof. intros Hc. simpl. by rewrite Hc. Qed.

Lemma trim_head (s : jsstring) (c : N) :
  head (trim s) = Some c → is_ws c = false.
Proof.
  unfold trim, trimEnd, trimStart.
  destruct (dropWhile is_ws s) as [|x d] eqn:Hd; [done|].
  pose proof (dropWhile_head _ _ _ _ Hd) as Hx.
  rewrite reverse_cons, dropWhile_snoc_false by done.
  rewrite reverse_app. simpl. by intros [= <-].
Qed.

Lemma trim_last (s : jsstring) (c : N) :
  last (trim s) = Some c → is_ws c = false.
Proof.
  unfold trim, trimEnd. rewrite last_reverse.
  destruct (dropWhile is_ws (reverse (trimStart s))) as [|x d] eqn:Hd; [done|].
  simpl. intros [= <-]. by apply dropWhile_head in Hd.
Qed.

Lemma trim_fixed (t : jsstring) :
  (∀ c, head t = Some c → is_ws c = false) →
  (∀ c, last t = Some c → is_ws c = false) →
  trim t = t.
Proof.
  intros Hhead Hlast. unfold trim, trimEnd, trimStart.
  destruct t as [|x t]; [done|].
  rewrite dropWhile_head_false by (by apply Hhead).
  destruct (reverse (x :: t)) as [|y r] eqn:Hr.
  - by apply (f_equal reverse) in Hr; rewrite reverse_involutive in Hr.
  - rewrite dropWhile_head_false.
    + by rewrite <- Hr, reverse_involutive.
    + apply Hlast. by rewrite <- head_reverse, Hr.
Qed.

(** X15: whatever is typed, a title that Add posts is never empty and
    never starts or ends with whitespace; trimming it again changes
    nothing.  Add posts nothing else. *)
Theorem posted_title_is_trimmed (w : World) (s : State) (r : Request) :
  r ∈ sent (invoke handleAdd w s) →
  ∃ t, r = PostTodo t ∧ t = trim (newTitle s) ∧ trimmed t ∧ trim t = t.
Proof.
  unfold invoke, handleAdd.
  destruct (falsy (trim (newTitle s))) eqn:Hf; simpl.
  - intros Hin. by apply elem_of_nil in Hin.
  - assert (trimmed (trim (newTitle s))) as Htr.
    { split; [|split].
      - intros Hnil. by rewrite Hnil in Hf.
      - apply trim_head.
      - apply trim_last. }
    destruct (reply (w 0%nat) (PostTodo (trim (newTitle s)))); simpl;
      intros Hin; apply list_elem_of_singleton in Hin as ->;
      (eexists; split; [done|]; split; [done|]; split; [done|]);
      destruct Htr as (_ & Hh & Hl); by apply trim_fixed.
Qed.

Lemma posted_title_is_trimmed_witness :
  let s := with_newTitle (lit " Buy milk ") example_state in
  ∃ t, PostTodo (lit "Buy milk") = PostTodo t ∧ t = trim (newTitle s) ∧ trimmed t ∧ trim t = t.
Proof.
  apply (posted_title_is_trimmed (calm echo)
           (with_newTitle (lit " Buy milk ") example_state)
           (PostTodo (lit "Buy milk"))).
  apply (bool_decide_unpack _). by vm_compute.
Defined.

End PostedTitle.

(** ** The buttons and their handlers *)
Section Buttons.

(** X16: the Add button is enabled exactly when nothing is loading and a
    click would send the request: the button's test and the guard of
    [handleAdd] agree. *)
Theorem addDisabled_agrees (w : World) (s : State) :
  addDisabled s = false ↔
  loading s = false ∧ sent (invoke handleAdd w s) = [PostTodo (trim (newTitle s))].
Proof.
  unfold addDisabled, invoke, handleAdd.
  destruct (loading s), (falsy (trim (newTitle s))); simpl;
    try (split; [done | by intros [? ?]]).
  by destruct (reply (w 0%nat) (PostTodo (trim (newTitle s)))).
Qed.

(** X17: the "Clear completed" button is enabled exactly when nothing is
    loading and a click would send at least one DELETE: the button's
    [every] test and the early return of [clearCompleted] agree. *)
Theorem clearDisabled_agrees (w : World) (s : State) :
  clearDisabled s = false ↔
  loading s = false ∧ sent (invoke clearCompleted w s) ≠ [].
Proof.
  assert (forallb (λ t, negb (completed t)) (todos s) = true ↔
          filter (λ t, completed t) (todos s) = []) as Hevery.
  { induction (todos s) as [|t l IH]; simpl; [done|].
    rewrite filter_cons. destruct (completed t); simpl.
    - destruct (decide (Is_true true)) as [_|Hn]; [done | by destruct Hn].
    - destruct (decide (Is_true false)) as [[]|_]. exact IH. }
  unfold clearDisabled. rewrite invoke_clearCompleted. cbv zeta.
  destruct Hevery as [Hnil Hall].
  destruct (forallb _ _).
  - rewrite (Hnil eq_refl). simpl.
    rewrite orb_true_r. split; [done | by intros [_ ?]].
  - assert (filter (λ t, completed t) (todos s) ≠ []) as Hne.
    { intros Hnil'. by apply Hall in Hnil'. }
    rewrite orb_false_r.
    destruct (decide _) as [Hlen|Hlen]; [by apply nil_length_inv in Hlen|]. simpl.
    split.
    + intros Hl. split; [done|]. intros Hemp. by apply fmap_nil_inv in Hemp.
    + by intros [? _].
Qed.

End Buttons.

(** ** Operations one after the other *)
Section Sequences.

(** X18: an error left by an earlier failure is gone once the next Add,
    Toggle or Remove succeeds: the handler clears it before the request and
    does not set it again. *)
Theorem success_clears_error (op : Operation) (w : World) (s : State)
    (d : Data (request_of op s)) :
  issues op s →
  reply (w 0%nat) (request_of op s) = inl d →
  (∀ st, error (meanwhile (w 0%nat) st) = error st) →
  let o := invoke (handler_of op) w s in
  error (final o) = None ∧ loading (final o) = false.
Proof.
  intros Hsend Hok Herr.
  destruct op as [|todo|id]; unfold invoke; simpl in *.
  - apply falsy_trim_false in Hsend. unfold handleAdd. rewrite Hsend. simpl.
    rewrite Hok. simpl. by rewrite Herr.
  - rewrite Hok. simpl. by rewrite Herr.
  - rewrite Hok. simpl. by rewrite Herr.
Qed.

Lemma success_clears_error_witness :
  let s := with_error (Some (lit "Failed to delete todo")) example_state in
  let o := invoke (removeTodo (lit "2")) (calm echo) s in
  error s = Some (lit "Failed to delete todo") ∧
  error (final o) = None ∧ loading (final o) = false.
Proof.
  split; [reflexivity|].
  exact (success_clears_error (Remove (lit "2")) (calm echo)
           (with_error (Some (lit "Failed to delete todo")) example_state)
           tt I eq_refl (λ _, eq_refl)).
Defined.

(** X19: adding an item and then removing it gives the list back: after a
    successful Add and a successful Remove of the id the server assigned, an
    id no other item has, [todos] is what it was before the Add. *)
Theorem add_then_remove (w1 w2 : World) (s : State) (created : Todo) (d : unit) :
  ¬ blank (newTitle s) →
  reply (w1 0%nat) (PostTodo (trim (newTitle s))) = inl created →
  reply (w2 0%nat) (DeleteTodo (_id created)) = inl d →
  keeps_todos w1 → keeps_todos w2 →
  _id created ∉ _id <$> todos s →
  let s1 := final (invoke handleAdd w1 s) in
  todos s1 = created :: todos s ∧
  todos (final (invoke (removeTodo (_id created)) w2 s1)) = todos s.
Proof.
  intros Hsend Hpost Hdel Hk1 Hk2 Hfresh. cbv zeta.
  apply falsy_trim_false in Hsend.
  assert (todos (final (invoke handleAdd w1 s)) = created :: todos s) as Hadd.
  { unfold invoke, handleAdd. rewrite Hsend. simpl. rewrite Hpost. simpl.
    by rewrite Hk1. }
  split; [done|].
  unfold invoke at 1. simpl. rewrite Hdel. simpl. rewrite Hk2. simpl.
  rewrite Hadd. rewrite filter_cons_False by (intros Hne; by apply Hne).
  apply filter_all, Forall_forall. intros t Ht Heq. apply Hfresh.
  rewrite <- Heq. by apply list_elem_of_fmap_2.
Qed.

Lemma add_then_remove_witness :
  let s := with_newTitle (lit " Buy milk ") example_state in
  let s1 := final (invoke handleAdd (calm echo) s) in
  length (todos s1) = 4%nat ∧
  todos (final (invoke (removeTodo (lit "new")) (calm echo) s1)) = example_items.
Proof.
  pose proof (add_then_remove (calm echo) (calm echo)
                (with_newTitle (lit " Buy milk ") example_state)
                {| _id := lit "new"; title := lit "Buy milk"; completed := false |} tt
                not_blank_buy_milk eq_refl eq_refl (λ _ _, eq_refl) (λ _ _, eq_refl))
    as Hround.
  destruct Hround as [Hadd Hrem].
  - apply (bool_decide_unpack _). by vm_compute.
  - split; [by rewrite Hadd | exact Hrem].
Defined.

(** X20: ticking a checkbox and unticking it gives the list back: when the
    server answers each Toggle with the item flipped and every item of the
    list with that id is the item itself, [todos] after the two Toggles is
    what it was before. *)
Theorem toggle_twice (w1 w2 : World) (s : State) (todo : Todo) :
  reply (w1 0%nat) (PutTodo (_id todo) (negb (completed todo))) = inl (flipped todo) →
  reply (w2 0%nat) (PutTodo (_id todo) (completed todo)) = inl todo →
  keeps_todos w1 → keeps_todos w2 →
  Forall (λ t, _id t = _id todo → t = todo) (todos s) →
  let s1 := final (invoke (toggleCompleted todo) w1 s) in
  todos (final (invoke (toggleCompleted (flipped todo)) w2 s1)) = todos s.
Proof.
  intros Hput1 Hput2 Hk1 Hk2 Hsame. cbv zeta.
  unfold invoke at 1. simpl. rewrite negb_involutive, Hput2. simpl. rewrite Hk2. simpl.
  unfold invoke. simpl. rewrite Hput1. simpl. rewrite Hk1. simpl.
  induction Hsame as [|t l Ht Hl IH]; [done|].
  rewrite !fmap_cons, IH. f_equal.
  destruct (decide (_id t = _id todo)) as [Heq|Hne]; simpl.
  - rewrite decide_True by done. symmetry. by apply Ht.
  - by rewrite decide_False.
Qed.

Lemma toggle_twice_witness :
  let s1 := final (invoke (toggleCompleted (item "2" false)) (calm echo) example_state) in
  todos (final (invoke (toggleCompleted (item "2" true)) (calm echo) s1)) = example_items.
Proof.
  apply (toggle_twice (calm echo) (calm echo) example_state (item "2" false)
           eq_refl eq_refl (λ _ _, eq_refl) (λ _ _, eq_refl)).
  repeat constructor; discriminate.
Defined.

End Sequences.

(** ** The theme *)
Section ThemeFacts.

Lemma saved_theme_name (t : Theme) : saved_theme (Some (theme_name t)) = Some t.
Proof. by destruct t. Qed.

(** X21: after the mount effect and after every click on the theme button,
    the [data-theme] attribute names the theme of the state; a click also
    stores that name, while the mount effect never writes to the storage. *)
Theorem theme_in_step (b : Browser) (s : State) :
  let '(b1, s1) := initTheme b s in
  let '(b2, s2) := toggleTheme b s in
  dataset_theme b1 = Some (theme_name (theme s1)) ∧
  stored_theme b1 = stored_theme b ∧
  dataset_theme b2 = Some (theme_name (theme s2)) ∧
  stored_theme b2 = Some (theme_name (theme s2)) ∧
  theme s2 ≠ theme s.
Proof.
  unfold initTheme, toggleTheme.
  destruct (saved_theme (stored_theme b)); simpl;
    repeat split; try done; by destruct (theme s).
Qed.

(** X22: the chosen theme survives a reload: after a click on the theme
    button, the mount effect of a fresh page picks the theme the click
    chose, whatever the system preference; a second click brings the first
    theme back. *)
Theorem theme_survives_reload (b : Browser) (s : State) (dark_preferred : bool) :
  let '(b1, s1) := toggleTheme b s in
  let reloaded := {| stored_theme := stored_theme b1; dataset_theme := None;
                     prefersDark := dark_preferred |} in
  theme (initTheme reloaded initial).2 = theme s1 ∧
  theme (toggleTheme b1 s1).2 = theme s.
Proof.
  unfold toggleTheme, initTheme. cbn [with_stored with_dataset stored_theme snd].
  rewrite saved_theme_name. cbn. by destruct (theme s).
Qed.

(** X23: with nothing usable in the storage (no entry, or an entry that is
    neither ['light'] nor ['dark']) the mount effect follows the system
    preference. *)
Theorem theme_falls_back (b : Browser) (s : State) :
  match stored_theme b with
  | None => True
  | Some v => v ≠ lit "light" ∧ v ≠ lit "dark"
  end →
  theme (initTheme b s).2 = (if prefersDark b then dark else light).
Proof.
  intros Hbad. unfold initTheme, saved_theme.
  destruct (stored_theme b) as [v|]; [|done].
  destruct Hbad as [Hl Hd].
  by rewrite !decide_False.
Qed.

Lemma theme_falls_back_witness :
  theme (initTheme fresh_dark_browser initial).2 = dark ∧
  theme (initTheme {| stored_theme := Some (lit "blue"); dataset_theme := None;
                      prefersDark := false |} initial).2 = light.
Proof.
  split.
  - exact (theme_falls_back fresh_dark_browser initial I).
  - apply (theme_falls_back {| stored_theme := Some (lit "blue"); dataset_theme := None;
                               prefersDark := false |} initial).
    split; discriminate.
Defined.

End ThemeFacts.

(** ** Two Toggles in flight *)
Section Concurrent.




End Concurrent.
